(** * The counter slice of rtk-split: state, reducer, thunks and hook bindings

    A shallow embedding of [counter/src/counterSlice.ts] and of the store of
    [main-app/src/app/store.ts].

    Conventions of the embedding.
    - The counter and the amounts are whole numbers. A [number] of
      JavaScript is a binary64 double, so a whole number is carried as the
      integer [Z] it denotes, and [+=] and [-=] are the exact sum or
      difference rounded to the nearest double, ties to even
      ([number_add], [number_sub], through [round64]). Below [2^53] in
      magnitude nothing is rounded. Fractions, [NaN] and sums whose
      magnitude reaches [2^1024] ([Infinity] in JavaScript) are outside
      the model.
    - The JavaScript remainder [%] takes the sign of its left operand; on
      integers it is [Z.rem].
    - A reducer written against an Immer draft ([state.value += 1]) is the
      function that returns the updated record.
    - An action is a value of the typed sum [Action]: one constructor per
      action creator the slice and its thunk generate, with the payload type
      the source declares ([PayloadAction<number>]), and one constructor for
      the actions of any other type. *)

From Stdlib Require Import ZArith String List Bool Lia Permutation.
From Stdlib Require Floats Uint63.
Import ListNotations.

Local Open Scope Z_scope.
Local Open Scope string_scope.

(** ** Numbers *)

(** [Number.MAX_SAFE_INTEGER]: up to it in magnitude, every integer is a
    double and so is its successor. *)
Definition MAX_SAFE_INTEGER : Z := 2 ^ 53 - 1.

(** [Number.isSafeInteger] *)
Definition is_safe (z : Z) : Prop := Z.abs z <= MAX_SAFE_INTEGER.

(** The double nearest to an integer, ties to the even significand: a
    double has 53 significant bits, so an integer of magnitude [a] at or
    above [2^53] is rounded to a multiple of [2^e], where
    [e = log2 a - 52]. *)
Definition round64 (z : Z) : Z :=
  (let a := Z.abs z in
   if a <? 2 ^ 53 then z
   else
     let e := Z.log2 a - 52 in
     let q := a / 2 ^ e in
     let r := a mod 2 ^ e in
     let half := 2 ^ (e - 1) in
     let q' := if r <? half then q
               else if half <? r then q + 1
               else if Z.even q then q else q + 1 in
     Z.sgn z * (q' * 2 ^ e))%Z.

(** [a + b] and [a - b] on doubles that hold whole numbers. *)
Definition number_add (a b : Z) : Z := round64 (a + b).
Definition number_sub (a b : Z) : Z := round64 (a - b).

(** The double of the kernel that holds a whole number below [2^63] in
    magnitude, to compare [number_add] with the addition of binary64. *)
Definition to_float (z : Z) : PrimFloat.float :=
  if (z <? 0)%Z
  then PrimFloat.opp (PrimFloat.of_uint63 (Uint63.of_Z (- z)))
  else PrimFloat.of_uint63 (Uint63.of_Z z).

Definition add_agrees_with_binary64 (a b : Z) : bool :=
  PrimFloat.eqb (to_float (number_add a b))
    (PrimFloat.add (to_float a) (to_float b)).

Definition sub_agrees_with_binary64 (a b : Z) : bool :=
  PrimFloat.eqb (to_float (number_sub a b))
    (PrimFloat.sub (to_float a) (to_float b)).

(** ** The state of the slice *)

(** [status: "idle" | "loading" | "failed"] *)
Inductive Status : Type :=
| idle
| loading
| failed.

(** [interface CounterState { value: number; status: ... }] *)
Record CounterState : Type := mkCounterState {
  value : Z;
  status : Status
}.

(** Assignments to the fields of a draft. *)
Definition set_value (state : CounterState) (v : Z) : CounterState :=
  {| value := v; status := status state |}.

Definition set_status (state : CounterState) (s : Status) : CounterState :=
  {| value := value state; status := s |}.

Definition initialState : CounterState :=
  {| value := 0; status := idle |}.

(** ** Actions *)

(** The action types of the slice: [createSlice] names the action of the
    case reducer [k] as [name/k], and [createAsyncThunk] derives three
    types from its prefix. *)
Definition slice_name : string := "counter".
Definition thunk_prefix : string := "counter/fetchCount".

Definition slice_action_types : list string :=
  [ slice_name ++ "/increment";
    slice_name ++ "/decrement";
    slice_name ++ "/incrementByAmount";
    thunk_prefix ++ "/pending";
    thunk_prefix ++ "/fulfilled";
    thunk_prefix ++ "/rejected" ].

(** A type string that belongs to none of the creators above. *)
Definition is_foreign (type : string) : bool :=
  negb (existsb (String.eqb type) slice_action_types).

Inductive Action : Type :=
| increment
| decrement
| incrementByAmount (payload : Z)
| incrementAsync_pending
| incrementAsync_fulfilled (payload : Z)
| incrementAsync_rejected
| Foreign (type : string) (foreign : is_foreign type = true).

Definition action_type (a : Action) : string :=
  match a with
  | increment => slice_name ++ "/increment"
  | decrement => slice_name ++ "/decrement"
  | incrementByAmount _ => slice_name ++ "/incrementByAmount"
  | incrementAsync_pending => thunk_prefix ++ "/pending"
  | incrementAsync_fulfilled _ => thunk_prefix ++ "/fulfilled"
  | incrementAsync_rejected => thunk_prefix ++ "/rejected"
  | Foreign type _ => type
  end.

(** The [fulfilled] actions of the thunk, [incrementAsync.fulfilled.match]. *)
Definition is_fulfilled (a : Action) : bool :=
  match a with
  | incrementAsync_fulfilled _ => true
  | _ => false
  end.

(** The action redux dispatches when a store is created. *)
Definition redux_init : Action := Foreign "@@redux/INIT" eq_refl.

(** ** The case reducers *)

(** The [reducers] field of [createSlice]. *)
Module reducers.

(** [state.value += 1] *)
Definition increment (state : CounterState) : CounterState :=
  set_value state (number_add (value state) 1).

(** [state.value -= 1] *)
Definition decrement (state : CounterState) : CounterState :=
  set_value state (number_sub (value state) 1).

(** [state.value += action.payload] *)
Definition incrementByAmount (state : CounterState) (payload : Z)
  : CounterState :=
  set_value state (number_add (value state) payload).

End reducers.

(** The cases [extraReducers] adds with [builder.addCase]. *)
Module extraReducers.

(** [state.status = "loading"] *)
Definition pending (state : CounterState) : CounterState :=
  set_status state loading.

(** [state.status = "idle"; state.value += action.payload] *)
Definition fulfilled (state : CounterState) (payload : Z) : CounterState :=
  let state := set_status state idle in
  set_value state (number_add (value state) payload).

End extraReducers.

(** The reducer [createSlice] builds: the case of the action's type when
    the slice has one, the state itself otherwise. *)
Definition caseReducer (state : CounterState) (action : Action)
  : CounterState :=
  match action with
  | increment => reducers.increment state
  | decrement => reducers.decrement state
  | incrementByAmount payload => reducers.incrementByAmount state payload
  | incrementAsync_pending => extraReducers.pending state
  | incrementAsync_fulfilled payload => extraReducers.fulfilled state payload
  | incrementAsync_rejected => state
  | Foreign _ _ => state
  end.

(** [counterSlice.reducer]: an undefined state stands for [initialState]. *)
Definition counterSliceReducer (state : option CounterState) (action : Action)
  : CounterState :=
  caseReducer (match state with
               | Some s => s
               | None => initialState
               end) action.

(** ** The store of the host application *)

(** [RootState]: the object with the slice mounted under [counter]. *)
Record RootState : Type := mkRootState {
  counter : CounterState
}.

(** The root reducer of [configureStore({ reducer: { counter } })]. *)
Definition rootReducer (state : option RootState) (action : Action)
  : RootState :=
  {| counter := counterSliceReducer (option_map counter state) action |}.

(** The state of a store that has just been created. *)
Definition store_initial : RootState := rootReducer None redux_init.

(** One dispatched plain action. *)
Definition dispatch (state : RootState) (action : Action) : RootState :=
  rootReducer (Some state) action.

(** Plain actions dispatched in order. *)
Definition dispatchAll (actions : list Action) (state : RootState)
  : RootState :=
  fold_left dispatch actions state.

(** [selectCount = (state) => state.counter.value] *)
Definition selectCount (state : RootState) : Z := value (counter state).

(** States of the slice a store can be in: the initial one, and the one any
    action leads to from such a state. *)
Inductive reachable : CounterState -> Prop :=
| reachable_init : reachable (counterSliceReducer None redux_init)
| reachable_step (s : CounterState) (a : Action) :
    reachable s -> reachable (counterSliceReducer (Some s) a).

(** ** Thunks *)

(** What [fetchCount] resolves with: [{ data: number }]. *)
Record FetchResponse : Type := mkFetchResponse {
  data : Z
}.

(** How the promise of the external call [fetchCount] settles. The call
    itself lives outside the slice ([./counterAPI]); only its outcome
    matters here. *)
Inductive Settled : Type :=
| Resolved (response : FetchResponse)
| Rejected.

(** A thunk is a program over the store: it returns or throws, dispatches
    plain actions, reads the state, and may await [fetchCount]. At an
    [await] the program gives control back; [k] continues it when the call
    resolves and [handler] when it rejects. *)
Inductive Thunk (A : Type) : Type :=
| Return (a : A)
| Throw
| Dispatch (action : Action) (k : Thunk A)
| GetState (k : RootState -> Thunk A)
| AwaitFetchCount (amount : Z) (k : FetchResponse -> Thunk A)
    (handler : Thunk A).

Arguments Return {A} a.
Arguments Throw {A}.
Arguments Dispatch {A} action k.
Arguments GetState {A} k.
Arguments AwaitFetchCount {A} amount k handler.

Fixpoint bind {A B : Type} (t : Thunk A) (f : A -> Thunk B) : Thunk B :=
  match t with
  | Return a => f a
  | Throw => Throw
  | Dispatch action k => Dispatch action (bind k f)
  | GetState k => GetState (fun state => bind (k state) f)
  | AwaitFetchCount amount k handler =>
      AwaitFetchCount amount (fun r => bind (k r) f) (bind handler f)
  end.

(** [try { t } catch { handler }] *)
Fixpoint try_catch {A : Type} (t : Thunk A) (handler : Thunk A) : Thunk A :=
  match t with
  | Return a => Return a
  | Throw => handler
  | Dispatch action k => Dispatch action (try_catch k handler)
  | GetState k => GetState (fun state => try_catch (k state) handler)
  | AwaitFetchCount amount k h =>
      AwaitFetchCount amount (fun r => try_catch (k r) handler)
        (try_catch h handler)
  end.

Declare Scope thunk_scope.
Delimit Scope thunk_scope with thunk.
Notation "x <- t ;; k" := (bind t (fun x => k))
  (at level 61, t at next level, right associativity) : thunk_scope.
Notation "'dispatch!' a ;; k" := (Dispatch a k)
  (at level 61, a at next level, right associativity) : thunk_scope.

(** [await fetchCount(amount)] inside an [async] function with no [try]:
    a rejection is thrown on. *)
Definition await_fetchCount (amount : Z) : Thunk FetchResponse :=
  AwaitFetchCount amount Return Throw.

(** The payload creator handed to [createAsyncThunk]:
    [const response = await fetchCount(amount); return response.data;] *)
Definition payloadCreator (amount : Z) : Thunk Z :=
  (response <- await_fetchCount amount ;;
   Return (data response))%thunk.

(** [incrementAsync = createAsyncThunk("counter/fetchCount", payloadCreator)]:
    the thunk dispatches [pending] at once, awaits the payload creator, and
    dispatches [fulfilled] with its result, or [rejected] when it threw;
    the action dispatched last is the thunk's result. *)
Definition incrementAsync (amount : Z) : Thunk Action :=
  (dispatch! incrementAsync_pending ;;
   finalAction <-
     try_catch
       (result <- payloadCreator amount ;;
        Return (incrementAsync_fulfilled result))
       (Return incrementAsync_rejected) ;;
   dispatch! finalAction ;;
   Return finalAction)%thunk.

(** [incrementIfOdd = (amount) => (dispatch, getState) => { ... }] *)
Definition incrementIfOdd (amount : Z) : Thunk unit :=
  GetState (fun state =>
    let currentValue := selectCount state in
    if (Z.rem currentValue 2 =? 1)%Z
    then (dispatch! incrementByAmount amount ;; Return tt)%thunk
    else Return tt).

(** *** Running a thunk against the store *)

(** Where a run stops: the thunk returned, threw, or waits for
    [fetchCount]. *)
Inductive Outcome (A : Type) : Type :=
| Finished (a : A)
| Thrown
| Waiting (amount : Z) (k : FetchResponse -> Thunk A) (handler : Thunk A).

Arguments Finished {A} a.
Arguments Thrown {A}.
Arguments Waiting {A} amount k handler.

(** The synchronous part of a thunk: everything up to its first [await]. *)
Fixpoint run {A : Type} (t : Thunk A) (state : RootState)
  : RootState * Outcome A :=
  match t with
  | Return a => (state, Finished a)
  | Throw => (state, Thrown)
  | Dispatch action k => run k (dispatch state action)
  | GetState k => run (k state) state
  | AwaitFetchCount amount k handler => (state, Waiting amount k handler)
  end.

(** The continuation a settled call selects. *)
Definition settle {A : Type} (s : Settled) (k : FetchResponse -> Thunk A)
    (handler : Thunk A) : Thunk A :=
  match s with
  | Resolved response => k response
  | Rejected => handler
  end.

(** A thunk run to its end under a schedule: each time the thunk waits,
    the store first processes the actions other code dispatches meanwhile,
    then the call settles and the thunk goes on. *)
Fixpoint run_schedule {A : Type} (schedule : list (list Action * Settled))
    (t : Thunk A) (state : RootState) : RootState * Outcome A :=
  match run t state with
  | (state1, Waiting amount k handler) =>
      match schedule with
      | (meanwhile, s) :: rest =>
          run_schedule rest (settle s k handler) (dispatchAll meanwhile state1)
      | [] => (state1, Waiting amount k handler)
      end
  | stopped => stopped
  end.

(** The amount the pending external call was made with, if any. *)
Definition awaited_amount {A : Type} (o : Outcome A) : option Z :=
  match o with
  | Waiting amount _ _ => Some amount
  | _ => None
  end.

(** ** The overridable hooks *)

Section Adapter.

(** The types of the two hooks, [typeof useSliceDispatch] and
    [typeof useSliceSelector]. *)
Variables DispatchHook SelectorHook : Type.

(** The module-level bindings [export let useSliceDispatch] and
    [export let useSliceSelector]. *)
Record Bindings : Type := mkBindings {
  useSliceDispatch : DispatchHook;
  useSliceSelector : SelectorHook
}.

(** The two assignments of [initializeSlicePackage], in order. *)
Definition initializeSlicePackage (useAppDispatch : DispatchHook)
    (useAppSelector : SelectorHook) (m : Bindings) : Bindings :=
  let m := {| useSliceDispatch := useAppDispatch;
              useSliceSelector := useSliceSelector m |} in
  {| useSliceDispatch := useSliceDispatch m;
     useSliceSelector := useAppSelector |}.

(** A use of one of the two exported names by importing code. *)
Inductive HookCall : Type :=
| call_useSliceDispatch
| call_useSliceSelector.

(** What happens to the module over time. *)
Inductive ModuleEvent : Type :=
| Initialize (useAppDispatch : DispatchHook) (useAppSelector : SelectorHook)
| Call (c : HookCall).

(** The function a call ended up in. *)
Inductive HookUsed : Type :=
| used_dispatch (h : DispatchHook)
| used_selector (h : SelectorHook).

(** A call reads the binding at the time of the call. *)
Definition resolve (m : Bindings) (c : HookCall) : HookUsed :=
  match c with
  | call_useSliceDispatch => used_dispatch (useSliceDispatch m)
  | call_useSliceSelector => used_selector (useSliceSelector m)
  end.

(** The bindings after a sequence of events, and the function each call
    of the sequence reached. *)
Fixpoint module_run (events : list ModuleEvent) (m : Bindings)
  : Bindings * list HookUsed :=
  match events with
  | [] => (m, [])
  | Initialize d s :: rest => module_run rest (initializeSlicePackage d s m)
  | Call c :: rest =>
      let (m', used) := module_run rest m in
      (m', resolve m c :: used)
  end.

End Adapter.

Arguments mkBindings {DispatchHook SelectorHook}.
Arguments useSliceDispatch {DispatchHook SelectorHook}.
Arguments useSliceSelector {DispatchHook SelectorHook}.
Arguments initializeSlicePackage {DispatchHook SelectorHook}.
Arguments Initialize {DispatchHook SelectorHook}.
Arguments Call {DispatchHook SelectorHook}.
Arguments used_dispatch {DispatchHook SelectorHook}.
Arguments used_selector {DispatchHook SelectorHook}.
Arguments resolve {DispatchHook SelectorHook}.
Arguments module_run {DispatchHook SelectorHook}.

(** ** The store of the application over time *)

(** A call of [fetchCount] that has not settled yet, with what the thunk
    that made it does next. *)
Record PendingCall : Type := mkCall {
  call_amount : Z;
  call_resolve : FetchResponse -> Thunk Action;
  call_reject : Thunk Action
}.

(** The store with the calls in flight: [getState] is the state the store
    holds, [inflight] the calls awaited, oldest first. *)
Record Store : Type := mkStore {
  getState : RootState;
  inflight : list PendingCall
}.

(** [export const store = configureStore({ reducer: { counter } })] *)
Definition store : Store :=
  {| getState := store_initial; inflight := [] |}.

Fixpoint remove_nth {A : Type} (i : nat) (l : list A) {struct l} : list A :=
  match l, i with
  | [], _ => []
  | _ :: rest, O => rest
  | x :: rest, S j => x :: remove_nth j rest
  end.

(** A thunk handed to the store runs at once up to its first [await]; the
    call it then waits for joins the calls in flight. *)
Definition launch (t : Thunk Action) (s : Store) : Store :=
  match run t (getState s) with
  | (state, Waiting amount k handler) =>
      {| getState := state;
         inflight := inflight s ++ [mkCall amount k handler] |}
  | (state, _) => {| getState := state; inflight := inflight s |}
  end.

(** What can happen to the store: code dispatches a plain action or one
    of the two thunks, or one of the calls in flight settles. *)
Inductive Event : Type :=
| EvAction (a : Action)
| EvIncrementAsync (amount : Z)
| EvIncrementIfOdd (amount : Z)
| EvSettle (i : nat) (s : Settled).

Definition step (s : Store) (e : Event) : Store :=
  match e with
  | EvAction a =>
      {| getState := dispatch (getState s) a; inflight := inflight s |}
  | EvIncrementAsync amount => launch (incrementAsync amount) s
  | EvIncrementIfOdd amount =>
      {| getState := fst (run (incrementIfOdd amount) (getState s));
         inflight := inflight s |}
  | EvSettle i o =>
      match nth_error (inflight s) i with
      | Some c =>
          launch (settle o (call_resolve c) (call_reject c))
            {| getState := getState s;
               inflight := remove_nth i (inflight s) |}
      | None => s
      end
  end.

Definition run_events (events : list Event) (s : Store) : Store :=
  fold_left step events s.

(** The call [incrementAsync amount] leaves in flight: on resolution the
    [fulfilled] action with the data of the response, on rejection the
    [rejected] action. *)
Definition incrementAsync_call (amount : Z) : PendingCall :=
  {| call_amount := amount;
     call_resolve := fun response =>
       (dispatch! incrementAsync_fulfilled (data response) ;;
        Return (incrementAsync_fulfilled (data response)))%thunk;
     call_reject :=
       (dispatch! incrementAsync_rejected ;;
        Return incrementAsync_rejected)%thunk |}.

(** ** What an action contributes *)

(** The amount an action adds to [value]. *)
Definition value_delta (a : Action) : Z :=
  match a with
  | increment => 1
  | decrement => -1
  | incrementByAmount payload => payload
  | incrementAsync_fulfilled payload => payload
  | incrementAsync_pending | incrementAsync_rejected | Foreign _ _ => 0
  end.

(** What a sequence of actions adds in all, with signs and in magnitude. *)
Definition total_delta (actions : list Action) : Z :=
  fold_right Z.add 0 (map value_delta actions).

Definition total_magnitude (actions : list Action) : Z :=
  fold_right Z.add 0 (map (fun a => Z.abs (value_delta a)) actions).

(** The status an action assigns, if it assigns one. *)
Definition status_write (a : Action) : option Status :=
  match a with
  | incrementAsync_pending => Some loading
  | incrementAsync_fulfilled _ => Some idle
  | _ => None
  end.

(** * Properties *)

(** ** Basic facts about the reducer and the store *)

Lemma counter_dispatch (state : RootState) (a : Action) :
  counter (dispatch state a) = caseReducer (counter state) a.
Proof. reflexivity. Qed.

Lemma counterSliceReducer_Some (s : CounterState) (a : Action) :
  counterSliceReducer (Some s) a = caseReducer s a.
Proof. reflexivity. Qed.

Lemma dispatchAll_cons (a : Action) (rest : list Action) (state : RootState) :
  dispatchAll (a :: rest) state = dispatchAll rest (dispatch state a).
Proof. reflexivity. Qed.

Lemma dispatchAll_app (xs ys : list Action) (state : RootState) :
  dispatchAll (xs ++ ys) state = dispatchAll ys (dispatchAll xs state).
Proof. unfold dispatchAll. apply fold_left_app. Qed.

(** The action types of the typed creators are pairwise distinct, and a
    foreign action carries none of them: dispatching on the constructor is
    dispatching on the type string. *)
Lemma slice_action_types_NoDup : NoDup slice_action_types.
Proof.
  unfold slice_action_types.
  repeat (constructor; [ simpl; intuition discriminate | ]).
  constructor.
Qed.

Lemma Foreign_type_not_of_slice (type : string) (H : is_foreign type = true) :
  ~ In type slice_action_types.
Proof.
  intros Hin. unfold is_foreign in H.
  apply negb_true_iff in H.
  assert (E : existsb (String.eqb type) slice_action_types = true).
  { apply existsb_exists. exists type. split; [ exact Hin | apply String.eqb_refl ]. }
  congruence.
Qed.

(** An action with a foreign type is a [Foreign] action, so the [match] of
    [caseReducer] sends to the state itself exactly the actions whose type
    no case of the slice is registered for, plus [rejected]. *)
Lemma foreign_type_Foreign (a : Action) :
  is_foreign (action_type a) = true -> exists type H, a = Foreign type H.
Proof.
  destruct a as [ | | amount | | result | | type H ]; simpl;
    try (intros E; vm_compute in E; discriminate E).
  intros _. exists type, H. reflexivity.
Qed.

(** A transition keeps the status or sets it to [loading] or [idle]. *)
Lemma caseReducer_status (s : CounterState) (a : Action) :
  status (caseReducer s a) = status s
  \/ status (caseReducer s a) = loading
  \/ status (caseReducer s a) = idle.
Proof. destruct a; simpl; auto. Qed.

(** No transition sets the status to [failed]. *)
Lemma caseReducer_failed_only_if_was (s : CounterState) (a : Action) :
  status (caseReducer s a) = failed -> status s = failed.
Proof.
  destruct (caseReducer_status s a) as [H | [H | H]]; rewrite H;
    [ trivial | discriminate | discriminate ].
Qed.

(** Truncated remainder by two: [1] exactly on the positive odd numbers. *)
Lemma rem2_is_1_iff (v : Z) : Z.rem v 2 = 1 <-> 0 < v /\ Z.odd v = true.
Proof.
  split.
  - intros H.
    assert (Hpos : 0 < v).
    { destruct (Z.lt_trichotomy v 0) as [Hn | [Hz | Hp]]; [ | | exact Hp ].
      - pose proof (Z.rem_nonpos v 2 ltac:(lia) ltac:(lia)). lia.
      - subst v. discriminate H. }
    split; [ exact Hpos | ].
    rewrite Z.rem_mod_nonneg in H by lia.
    rewrite Zodd_mod. apply Z.eqb_eq. exact H.
  - intros [Hpos Hodd].
    rewrite Z.rem_mod_nonneg by lia.
    rewrite Zodd_mod in Hodd. apply Z.eqb_eq. exact Hodd.
Qed.

(** ** The asynchronous increment *)

(** What the thunk does at once: the [pending] action, then it waits for
    [fetchCount amount]. *)
Lemma incrementAsync_start (amount : Z) (state : RootState) :
  fst (run (incrementAsync amount) state)
    = dispatch state incrementAsync_pending
  /\ awaited_amount (snd (run (incrementAsync amount) state)) = Some amount.
Proof. split; reflexivity. Qed.

(** The whole life of the thunk, for either way the call settles: one more
    action goes through the store, [fulfilled] or [rejected]. *)
Lemma incrementAsync_settled (amount : Z) (meanwhile : list Action)
    (s : Settled) (state : RootState) :
  let final :=
    match s with
    | Resolved response => incrementAsync_fulfilled (data response)
    | Rejected => incrementAsync_rejected
    end in
  run_schedule [(meanwhile, s)] (incrementAsync amount) state
  = (dispatch (dispatchAll meanwhile (dispatch state incrementAsync_pending))
       final,
     Finished final).
Proof. destruct s; reflexivity. Qed.

(** C1. Dispatching [incrementAsync amount] sets [status] to [loading] at
    once and leaves [value] as it is; the thunk then waits for the external
    call made with [amount]. When the call resolves with [result], after
    any actions [meanwhile] that other code dispatched, the [fulfilled]
    transition sets [status] to [idle] and adds [result] to the value the
    state holds at that time (the sum of JavaScript, [number_add]). Against [{value: 10, status: idle}] with
    amount and result 7: [{value: 10, status: loading}] after the dispatch,
    [{value: 17, status: idle}] after the resolution. *)
Theorem incrementAsync_pending_then_fulfilled :
  forall (state : RootState) (amount result : Z) (meanwhile : list Action),
    fst (run (incrementAsync amount) state)
      = {| counter := {| value := value (counter state);
                         status := loading |} |}
    /\ awaited_amount (snd (run (incrementAsync amount) state)) = Some amount
    /\ run_schedule [(meanwhile, Resolved {| data := result |})]
         (incrementAsync amount) state
       = ({| counter :=
               {| value :=
                    number_add
                      (value (counter
                                (dispatchAll meanwhile
                                   (fst (run (incrementAsync amount) state)))))
                      result;
                  status := idle |} |},
          Finished (incrementAsync_fulfilled result))
    /\ fst (run (incrementAsync 7)
              {| counter := {| value := 10; status := idle |} |})
       = {| counter := {| value := 10; status := loading |} |}
    /\ fst (run_schedule [([], Resolved {| data := 7 |})] (incrementAsync 7)
              {| counter := {| value := 10; status := idle |} |})
       = {| counter := {| value := 17; status := idle |} |}.
Proof.
  intros state amount result meanwhile.
  destruct (incrementAsync_start amount state) as [Hstart Hwait].
  split; [ rewrite Hstart; reflexivity | ].
  split; [ exact Hwait | ].
  split; [ | split; reflexivity ].
  rewrite (incrementAsync_settled amount meanwhile
             (Resolved {| data := result |}) state).
  rewrite Hstart. reflexivity.
Qed.

(** A transition other than [fulfilled] leaves a [loading] status as it
    is. *)
Lemma loading_kept_unless_fulfilled (s : CounterState) (a : Action) :
  status s = loading -> is_fulfilled a = false ->
  status (caseReducer s a) = loading.
Proof.
  intros Hs Ha. destruct a; simpl in *; try assumption; try reflexivity.
  discriminate Ha.
Qed.

Lemma loading_kept_by_dispatchAll (actions : list Action) :
  forall state : RootState,
    status (counter state) = loading ->
    existsb is_fulfilled actions = false ->
    status (counter (dispatchAll actions state)) = loading.
Proof.
  induction actions as [| a rest IH]; intros state Hs Hnone.
  - exact Hs.
  - simpl in Hnone. apply orb_false_iff in Hnone as [Ha Hrest].
    rewrite dispatchAll_cons. apply IH; [ | exact Hrest ].
    rewrite counter_dispatch.
    now apply loading_kept_unless_fulfilled.
Qed.

(** C3. When the external call rejects, the action the thunk dispatches for
    it meets no case of the slice: the reducer returns the state it was
    given, so the store is left as the actions dispatched meanwhile left
    it, and, none of those being a [fulfilled] action, [status] is still
    [loading]. *)
Theorem incrementAsync_rejection_not_handled :
  forall (state : RootState) (amount : Z) (meanwhile : list Action),
    existsb is_fulfilled meanwhile = false ->
    (forall s : CounterState,
        counterSliceReducer (Some s) incrementAsync_rejected = s)
    /\ fst (run_schedule [(meanwhile, Rejected)] (incrementAsync amount) state)
       = dispatchAll meanwhile (fst (run (incrementAsync amount) state))
    /\ status (counter (fst (run_schedule [(meanwhile, Rejected)]
                               (incrementAsync amount) state)))
       = loading.
Proof.
  intros state amount meanwhile Hnone.
  assert (Hrun :
    fst (run_schedule [(meanwhile, Rejected)] (incrementAsync amount) state)
    = dispatchAll meanwhile (fst (run (incrementAsync amount) state))).
  { rewrite (incrementAsync_settled amount meanwhile Rejected state).
    destruct (incrementAsync_start amount state) as [-> _].
    simpl fst.
    destruct (dispatchAll meanwhile (dispatch state incrementAsync_pending))
      as [[v st]].
    reflexivity. }
  split; [ intros [v st]; reflexivity | ].
  split; [ exact Hrun | ].
  rewrite Hrun.
  apply loading_kept_by_dispatchAll; [ reflexivity | exact Hnone ].
Qed.

Lemma incrementAsync_rejection_not_handled_witness :
  existsb is_fulfilled [increment; incrementAsync_pending] = false
  /\ status (counter (fst (run_schedule
                             [([increment; incrementAsync_pending], Rejected)]
                             (incrementAsync 7)
                             {| counter := {| value := 10; status := idle |} |})))
     = loading.
Proof.
  split; [ reflexivity | ].
  apply (incrementAsync_rejection_not_handled
           {| counter := {| value := 10; status := idle |} |} 7
           [increment; incrementAsync_pending]).
  reflexivity.
Defined.

(** ** Reachable states *)

(** C2. No state of the slice that a store reaches from its initial state,
    by any actions at all (the five transitions of the slice among them),
    has the status [failed]; and no transition sets it: a state whose
    successor is [failed] was [failed] already. *)
Theorem status_never_failed :
  (forall s : CounterState, reachable s -> status s <> failed)
  /\ (forall (s : CounterState) (a : Action),
         status (counterSliceReducer (Some s) a) = failed ->
         status s = failed).
Proof.
  split.
  - intros s H. induction H as [| s a _ IH].
    + discriminate.
    + intros Hfailed. apply IH.
      exact (caseReducer_failed_only_if_was s a Hfailed).
  - exact caseReducer_failed_only_if_was.
Qed.

Lemma status_never_failed_witness :
  reachable {| value := 5; status := loading |}
  /\ status {| value := 5; status := loading |} <> failed.
Proof.
  assert (R : reachable {| value := 5; status := loading |}).
  { apply (reachable_step {| value := 5; status := idle |}
             incrementAsync_pending).
    apply (reachable_step initialState (incrementByAmount 5)).
    exact reachable_init. }
  split; [ exact R | ].
  exact (proj1 status_never_failed _ R).
Defined.

(** ** The conditional increment *)

(** The run of the thunk: one read of the state, then at most one
    dispatch, decided by the remainder. *)
Lemma run_incrementIfOdd (state : RootState) (amount : Z) :
  run (incrementIfOdd amount) state
  = ((if Z.rem (selectCount state) 2 =? 1
      then dispatch state (incrementByAmount amount)
      else state)%Z,
     Finished tt).
Proof.
  unfold incrementIfOdd. cbn [run].
  case_eq (Z.rem (selectCount state) 2 =? 1)%Z; intros _; reflexivity.
Qed.

(** C4. [incrementIfOdd amount] reads the value the store holds when it
    runs and dispatches [incrementByAmount amount] exactly when the
    remainder of that value by two, taken with the sign of the value, is
    [1]; otherwise the state is left as it is. This is so for every
    integer value, negative ones too. With value 3 and amount 5 the value
    becomes 8; with value 4 and amount 5 it stays 4. *)
Theorem incrementIfOdd_dispatches_on_remainder_one :
  forall (state : RootState) (amount : Z),
    run (incrementIfOdd amount) state
      = ((if Z.rem (selectCount state) 2 =? 1
          then dispatch state (incrementByAmount amount)
          else state)%Z,
         Finished tt)
    /\ fst (run (incrementIfOdd amount) state)
       = (if Z.rem (selectCount state) 2 =? 1
          then {| counter := {| value := number_add (selectCount state) amount;
                                status := status (counter state) |} |}
          else state)%Z
    /\ (forall st : Status,
          selectCount (fst (run (incrementIfOdd 5)
                              {| counter := {| value := 3; status := st |} |}))
          = 8)
    /\ (forall st : Status,
          selectCount (fst (run (incrementIfOdd 5)
                              {| counter := {| value := 4; status := st |} |}))
          = 4).
Proof.
  intros state amount.
  split; [ apply run_incrementIfOdd | ].
  split; [ | split; intros st; reflexivity ].
  rewrite run_incrementIfOdd. cbn [fst].
  destruct (Z.rem (selectCount state) 2 =? 1)%Z; reflexivity.
Qed.

(** In terms of parity: the increment happens on the positive odd values
    only. *)
Lemma incrementIfOdd_positive_odd (state : RootState) (amount : Z) :
  0 < selectCount state -> Z.odd (selectCount state) = true ->
  selectCount (fst (run (incrementIfOdd amount) state))
  = number_add (selectCount state) amount.
Proof.
  intros Hpos Hodd.
  assert (E : Z.rem (selectCount state) 2 = 1)
    by (apply rem2_is_1_iff; split; assumption).
  rewrite run_incrementIfOdd, E. reflexivity.
Qed.

(** A value that is even, zero or negative is left alone: a negative odd
    value has remainder [-1], not [1]. *)
Lemma incrementIfOdd_otherwise_unchanged (state : RootState) (amount : Z) :
  selectCount state <= 0 \/ Z.odd (selectCount state) = false ->
  fst (run (incrementIfOdd amount) state) = state.
Proof.
  intros H. rewrite run_incrementIfOdd. cbn [fst].
  destruct (Z.eqb_spec (Z.rem (selectCount state) 2) 1) as [E | _];
    [ | reflexivity ].
  apply rem2_is_1_iff in E. destruct E as [Hpos Hodd].
  destruct H as [H | H]; [ lia | congruence ].
Qed.

Example incrementIfOdd_minus_three :
  fst (run (incrementIfOdd 5)
         {| counter := {| value := -3; status := idle |} |})
  = {| counter := {| value := -3; status := idle |} |}.
Proof. reflexivity. Qed.

(** ** Which transitions write which field *)

(** C5. A transition of the reducer that changes [value] is [increment],
    [decrement], [incrementByAmount] or the [fulfilled] transition of
    [incrementAsync]. Every other one leaves [value] as it is: the
    [pending] transition, the [rejected] action and any foreign action. *)
Theorem value_changed_only_by_four :
  forall (s : CounterState) (a : Action),
    (value (counterSliceReducer (Some s) a) <> value s ->
     a = increment \/ a = decrement
     \/ (exists amount, a = incrementByAmount amount)
     \/ (exists result, a = incrementAsync_fulfilled result))
    /\ value (counterSliceReducer (Some s) incrementAsync_pending) = value s
    /\ value (counterSliceReducer (Some s) incrementAsync_rejected) = value s
    /\ (forall type H,
           value (counterSliceReducer (Some s) (Foreign type H)) = value s).
Proof.
  intros s a. split; [ | repeat split ].
  intros Hchanged.
  destruct a as [ | | amount | | result | | type H ]; simpl in Hchanged.
  - left. reflexivity.
  - right. left. reflexivity.
  - right. right. left. exists amount. reflexivity.
  - contradiction Hchanged. reflexivity.
  - right. right. right. exists result. reflexivity.
  - contradiction Hchanged. reflexivity.
  - contradiction Hchanged. reflexivity.
Qed.

Lemma value_changed_only_by_four_witness :
  value (counterSliceReducer (Some initialState) (incrementByAmount 4))
    <> value initialState
  /\ (incrementByAmount 4 = increment \/ incrementByAmount 4 = decrement
      \/ (exists amount, incrementByAmount 4 = incrementByAmount amount)
      \/ (exists result, incrementByAmount 4 = incrementAsync_fulfilled result)).
Proof.
  assert (H : value (counterSliceReducer (Some initialState)
                       (incrementByAmount 4)) <> value initialState)
    by (vm_compute; discriminate).
  split; [ exact H | ].
  exact (proj1 (value_changed_only_by_four initialState (incrementByAmount 4))
           H).
Defined.

(** C10. [increment], [decrement] and [incrementByAmount] leave [status]
    as it is, for every state and payload; a transition that changes
    [status] is the [pending] or the [fulfilled] transition of
    [incrementAsync]. *)
Theorem status_written_only_by_async :
  forall (s : CounterState) (payload : Z) (a : Action),
    status (counterSliceReducer (Some s) increment) = status s
    /\ status (counterSliceReducer (Some s) decrement) = status s
    /\ status (counterSliceReducer (Some s) (incrementByAmount payload))
       = status s
    /\ (status (counterSliceReducer (Some s) a) <> status s ->
        a = incrementAsync_pending
        \/ exists result, a = incrementAsync_fulfilled result).
Proof.
  intros s payload a.
  repeat (split; [ reflexivity | ]).
  intros Hchanged.
  destruct a; simpl in Hchanged;
    try (exfalso; apply Hchanged; reflexivity).
  - left. reflexivity.
  - right. eexists. reflexivity.
Qed.

Lemma status_written_only_by_async_witness :
  status (counterSliceReducer (Some initialState) incrementAsync_pending)
    <> status initialState
  /\ (incrementAsync_pending = incrementAsync_pending
      \/ exists result, incrementAsync_pending = incrementAsync_fulfilled result).
Proof.
  assert (H : status (counterSliceReducer (Some initialState)
                        incrementAsync_pending) <> status initialState)
    by (simpl; discriminate).
  split; [ exact H | ].
  exact (proj2 (proj2 (proj2
           (status_written_only_by_async initialState 0
              incrementAsync_pending))) H).
Defined.

(** ** Algebra of the pure mutations *)

(** Nothing is rounded up to [2^53] in magnitude. *)
Lemma round64_exact (z : Z) : Z.abs z <= 2 ^ 53 -> round64 z = z.
Proof.
  intros H. unfold round64.
  destruct (Z.ltb_spec (Z.abs z) (2 ^ 53)) as [_ | Hge]; [ reflexivity | ].
  assert (E : z = 2 ^ 53 \/ z = - 2 ^ 53) by lia.
  destruct E as [-> | ->]; vm_compute; reflexivity.
Qed.

Lemma number_add_exact (a b : Z) :
  Z.abs (a + b) <= 2 ^ 53 -> number_add a b = a + b.
Proof. apply round64_exact. Qed.

Lemma number_sub_exact (a b : Z) :
  Z.abs (a - b) <= 2 ^ 53 -> number_sub a b = a - b.
Proof. apply round64_exact. Qed.

(** A rounded integer is even: an odd result was not rounded. *)
Lemma round64_odd (z : Z) : Z.odd (round64 z) = true -> round64 z = z.
Proof.
  unfold round64.
  destruct (Z.ltb_spec (Z.abs z) (2 ^ 53)) as [_ | Hge]; [ reflexivity | ].
  cbv zeta. intros Hodd. exfalso.
  assert (He : 0 < Z.log2 (Z.abs z) - 52).
  { assert (53 <= Z.log2 (Z.abs z)) by (apply Z.log2_le_pow2; lia). lia. }
  rewrite !Z.odd_mul in Hodd.
  rewrite (Z.odd_pow 2 _ He) in Hodd.
  rewrite !andb_false_r in Hodd. discriminate Hodd.
Qed.

(** The sums and differences of [number_add] and [number_sub] are those of
    binary64 at the places where rounding sets in, on both sides of zero,
    with ties to either side, and where nothing is rounded. *)
Example number_add_agrees_with_binary64 :
  forallb (fun p => add_agrees_with_binary64 (fst p) (snd p))
    [ (2 ^ 53, 1); (2 ^ 53, -1); (2 ^ 53, 2); (2 ^ 53, 3);
      (2 ^ 53 + 2, 1); (2 ^ 53 + 4, 1); (2 ^ 53 - 1, 1); (2 ^ 53 - 1, 2);
      (- 2 ^ 53, -1); (- 2 ^ 53, 1); (- 2 ^ 53 - 2, -1);
      (2 ^ 54 - 2, 3); (2 ^ 60, 127); (2 ^ 60, 128); (2 ^ 60, 129);
      (2 ^ 62 - 512, 2 ^ 61 + 1024); (3, 5); (10, 7); (2, -3); (0, 0) ]
  = true.
Proof. vm_compute. reflexivity. Qed.

Example number_sub_agrees_with_binary64 :
  forallb (fun p => sub_agrees_with_binary64 (fst p) (snd p))
    [ (2 ^ 53, 1); (2 ^ 53 + 2, 1); (2 ^ 53 + 4, 1); (- 2 ^ 53, 1);
      (- 2 ^ 53 - 2, 1); (2 ^ 54, 1); (2 ^ 60, 129); (0, 1); (5, 1) ]
  = true.
Proof. vm_compute. reflexivity. Qed.

(** C7, as it fails: at the value [2^53] the increment is rounded away
    ([2^53 + 1] is no double, the tie goes to [2^53]) and the decrement
    then gives [2^53 - 1]. *)
Lemma decrement_after_increment_fails_at_2_53 :
  value (counterSliceReducer
           (Some (counterSliceReducer
                    (Some {| value := 2 ^ 53; status := idle |}) increment))
           decrement)
    = 2 ^ 53 - 1
  /\ value (counterSliceReducer
              (Some (counterSliceReducer
                       (Some {| value := 2 ^ 53; status := idle |}) increment))
              decrement)
     <> value {| value := 2 ^ 53; status := idle |}.
Proof. split; vm_compute; [ reflexivity | discriminate ]. Qed.

(** C7, amended. For every state whose value is a safe integer (at most
    [2^53 - 1] in magnitude), [decrement] after [increment] leaves [value]
    as it was; the whole state, in fact. *)
Theorem decrement_after_increment :
  forall s : CounterState,
    is_safe (value s) ->
    value (counterSliceReducer
             (Some (counterSliceReducer (Some s) increment)) decrement)
      = value s
    /\ counterSliceReducer
         (Some (counterSliceReducer (Some s) increment)) decrement
       = s.
Proof.
  intros [v st] Hsafe. unfold is_safe, MAX_SAFE_INTEGER in Hsafe.
  simpl in Hsafe.
  unfold counterSliceReducer, caseReducer, reducers.increment,
    reducers.decrement, set_value; simpl.
  rewrite (number_add_exact v 1) by lia.
  rewrite (number_sub_exact (v + 1) 1) by lia.
  replace (v + 1 - 1) with v by lia.
  split; reflexivity.
Qed.

Lemma decrement_after_increment_witness :
  is_safe (value {| value := 2 ^ 53 - 1; status := loading |})
  /\ value (counterSliceReducer
              (Some (counterSliceReducer
                       (Some {| value := 2 ^ 53 - 1; status := loading |})
                       increment))
              decrement)
     = value {| value := 2 ^ 53 - 1; status := loading |}.
Proof.
  assert (H : is_safe (value {| value := 2 ^ 53 - 1; status := loading |}))
    by (unfold is_safe, MAX_SAFE_INTEGER; simpl; lia).
  split; [ exact H | ].
  exact (proj1 (decrement_after_increment
                  {| value := 2 ^ 53 - 1; status := loading |} H)).
Defined.

(** [increment] dispatched [n] times adds [n], as long as the value stays
    a safe integer. *)
Lemma increment_repeated (n : nat) :
  forall state : RootState,
    is_safe (selectCount state) ->
    is_safe (selectCount state + Z.of_nat n) ->
    dispatchAll (repeat increment n) state
    = {| counter := {| value := selectCount state + Z.of_nat n;
                       status := status (counter state) |} |}.
Proof.
  induction n as [| n IH]; intros [[v st]] Hv Hn;
    unfold is_safe, MAX_SAFE_INTEGER, selectCount in *;
    cbn [counter value status] in *.
  - simpl. rewrite Z.add_0_r. reflexivity.
  - change (repeat increment (S n)) with (increment :: repeat increment n).
    rewrite dispatchAll_cons.
    assert (E : dispatch {| counter := {| value := v; status := st |} |}
                  increment
                = {| counter := {| value := v + 1; status := st |} |}).
    { unfold dispatch, rootReducer, counterSliceReducer; simpl.
      unfold reducers.increment, set_value; simpl.
      rewrite (number_add_exact v 1) by lia. reflexivity. }
    rewrite E, IH; unfold selectCount; cbn [counter value status];
      [ | lia | lia ].
    do 2 f_equal. lia.
Qed.

(** C8, as it fails: at the value [2^53] each of two increments is
    rounded away, while [incrementByAmount 2] reaches [2^53 + 2]. *)
Lemma increment_twice_is_not_incrementByAmount_2_at_2_53 :
  selectCount (dispatchAll (repeat increment (Z.to_nat 2))
                 {| counter := {| value := 2 ^ 53; status := idle |} |})
    = 2 ^ 53
  /\ selectCount (dispatch {| counter := {| value := 2 ^ 53; status := idle |} |}
                    (incrementByAmount 2))
     = 2 ^ 53 + 2
  /\ selectCount (dispatchAll (repeat increment (Z.to_nat 2))
                    {| counter := {| value := 2 ^ 53; status := idle |} |})
     <> selectCount
          (dispatch {| counter := {| value := 2 ^ 53; status := idle |} |}
             (incrementByAmount 2)).
Proof.
  split; [ | split ]; vm_compute; [ reflexivity | reflexivity | discriminate ].
Qed.

(** C8, amended. For every state whose value [v] is a safe integer and
    every integer [n >= 0] such that [v + n] is a safe integer too,
    [increment] applied [n] times gives the value that one
    [incrementByAmount n] gives (and the same state). *)
Theorem increment_n_times_is_incrementByAmount :
  forall (state : RootState) (n : Z),
    0 <= n ->
    is_safe (selectCount state) ->
    is_safe (selectCount state + n) ->
    selectCount (dispatchAll (repeat increment (Z.to_nat n)) state)
      = selectCount (dispatch state (incrementByAmount n))
    /\ dispatchAll (repeat increment (Z.to_nat n)) state
       = dispatch state (incrementByAmount n).
Proof.
  intros state n Hn Hv Hvn.
  assert (E : dispatchAll (repeat increment (Z.to_nat n)) state
              = dispatch state (incrementByAmount n)).
  { rewrite increment_repeated; rewrite ?Z2Nat.id by exact Hn;
      [ | exact Hv | exact Hvn ].
    destruct state as [[v st]].
    unfold is_safe, MAX_SAFE_INTEGER, selectCount in *;
      cbn [counter value status] in *.
    unfold dispatch, rootReducer, counterSliceReducer; simpl.
    unfold reducers.incrementByAmount, set_value; simpl.
    rewrite (number_add_exact v n) by lia. reflexivity. }
  rewrite E. split; reflexivity.
Qed.

Lemma increment_n_times_is_incrementByAmount_witness :
  0 <= 3
  /\ is_safe (selectCount {| counter := {| value := -2; status := loading |} |})
  /\ is_safe (selectCount {| counter := {| value := -2; status := loading |} |}
              + 3)
  /\ selectCount (dispatchAll (repeat increment (Z.to_nat 3))
                    {| counter := {| value := -2; status := loading |} |})
     = selectCount (dispatch {| counter := {| value := -2; status := loading |} |}
                      (incrementByAmount 3)).
Proof.
  assert (H1 : is_safe (selectCount
                          {| counter := {| value := -2; status := loading |} |}))
    by (unfold is_safe, MAX_SAFE_INTEGER; simpl; lia).
  assert (H2 : is_safe (selectCount
                          {| counter := {| value := -2; status := loading |} |}
                        + 3))
    by (unfold is_safe, MAX_SAFE_INTEGER; simpl; lia).
  split; [ lia | split; [ exact H1 | split; [ exact H2 | ] ] ].
  exact (proj1 (increment_n_times_is_incrementByAmount
                  {| counter := {| value := -2; status := loading |} |} 3
                  ltac:(lia) H1 H2)).
Defined.

(** ** The initial state *)

(** C9. The initial state of the slice is [{value: 0, status: "idle"}]:
    the literal handed to [createSlice], what the reducer returns for an
    undefined state and an action it has no case for, and the [counter]
    field of a store that has just been created. *)
Theorem initial_state_exact :
  initialState = {| value := 0; status := idle |}
  /\ (forall type H,
         counterSliceReducer None (Foreign type H)
         = {| value := 0; status := idle |})
  /\ store_initial = {| counter := {| value := 0; status := idle |} |}.
Proof. repeat split. Qed.

(** ** The hook bindings *)

Section AdapterFacts.

Context {DispatchHook SelectorHook : Type}.

Implicit Types (m : Bindings DispatchHook SelectorHook).
Implicit Types (xs ys before : list (ModuleEvent DispatchHook SelectorHook)).

(** Both bindings are replaced. *)
Lemma initializeSlicePackage_bindings (d : DispatchHook) (s : SelectorHook) m :
  initializeSlicePackage d s m
  = {| useSliceDispatch := d; useSliceSelector := s |}.
Proof. reflexivity. Qed.

Lemma module_run_app xs ys :
  forall m,
    module_run (xs ++ ys) m
    = (fst (module_run ys (fst (module_run xs m))),
       (snd (module_run xs m)
        ++ snd (module_run ys (fst (module_run xs m))))%list).
Proof.
  induction xs as [| e xs IH]; intros m.
  - simpl. destruct (module_run ys m). reflexivity.
  - destruct e as [d s | c]; simpl.
    + apply IH.
    + rewrite IH. destruct (module_run xs m) as [m' used]. reflexivity.
Qed.

(** Calls alone leave the bindings as they are, and each one reaches the
    function bound at the start. *)
Lemma module_run_calls (calls : list HookCall) m :
  module_run (map Call calls) m = (m, map (resolve m) calls).
Proof.
  induction calls as [| c calls IH]; simpl.
  - reflexivity.
  - rewrite IH. reflexivity.
Qed.

(** C6. After [initializeSlicePackage useAppDispatch useAppSelector],
    whatever happened to the module before (earlier initializations
    included), the bindings are the pair just given, and every later
    call of [useSliceDispatch] or [useSliceSelector], however many there
    are, reaches that pair: the most recent initialization is the one in
    effect. *)
Theorem initializeSlicePackage_last_write_wins :
  forall before (useAppDispatch : DispatchHook)
         (useAppSelector : SelectorHook) (calls : list HookCall)
         (m0 : Bindings DispatchHook SelectorHook),
    fst (module_run (before ++ [Initialize useAppDispatch useAppSelector]) m0)
      = {| useSliceDispatch := useAppDispatch;
           useSliceSelector := useAppSelector |}
    /\ module_run
         (before ++ Initialize useAppDispatch useAppSelector
                    :: map Call calls) m0
       = ({| useSliceDispatch := useAppDispatch;
             useSliceSelector := useAppSelector |},
          (snd (module_run before m0)
           ++ map (fun c =>
                     match c with
                     | call_useSliceDispatch => used_dispatch useAppDispatch
                     | call_useSliceSelector => used_selector useAppSelector
                     end) calls)%list).
Proof.
  intros before d s calls m0. split.
  - rewrite module_run_app. reflexivity.
  - rewrite module_run_app.
    change (module_run (Initialize d s :: map Call calls)
              (fst (module_run before m0)))
      with (module_run (map Call calls)
              (initializeSlicePackage d s (fst (module_run before m0)))).
    rewrite module_run_calls, initializeSlicePackage_bindings.
    reflexivity.
Qed.

End AdapterFacts.

Example two_initializations :
  module_run
    [ Call call_useSliceDispatch;
      Initialize "hostDispatch1" "hostSelector1";
      Call call_useSliceSelector;
      Initialize "hostDispatch2" "hostSelector2";
      Call call_useSliceDispatch;
      Call call_useSliceSelector;
      Call call_useSliceDispatch ]
    {| useSliceDispatch := "useDispatch"; useSliceSelector := "useSelector" |}
  = ({| useSliceDispatch := "hostDispatch2";
        useSliceSelector := "hostSelector2" |},
     [ used_dispatch "useDispatch";
       used_selector "hostSelector1";
       used_dispatch "hostDispatch2";
       used_selector "hostSelector2";
       used_dispatch "hostDispatch2" ]).
Proof. reflexivity. Qed.


(** ** Sequences of actions *)

(** One action, when its sum is not rounded. *)
Lemma selectCount_dispatch_exact (state : RootState) (a : Action) :
  Z.abs (selectCount state + value_delta a) <= 2 ^ 53 ->
  selectCount (dispatch state a) = selectCount state + value_delta a.
Proof.
  unfold selectCount. rewrite counter_dispatch.
  destruct a as [ | | payload | | payload | | type H ]; simpl; intros Hb.
  - apply number_add_exact. exact Hb.
  - rewrite number_sub_exact by (replace (value (counter state) - 1)
                                   with (value (counter state) + -1) by lia;
                                 exact Hb).
    lia.
  - apply number_add_exact. exact Hb.
  - lia.
  - apply number_add_exact. exact Hb.
  - lia.
  - lia.
Qed.

Lemma status_dispatch (state : RootState) (a : Action) :
  status (counter (dispatch state a))
  = match status_write a with
    | Some s => s
    | None => status (counter state)
    end.
Proof. rewrite counter_dispatch. destruct a; reflexivity. Qed.

Lemma total_magnitude_nonneg (actions : list Action) :
  0 <= total_magnitude actions.
Proof.
  induction actions as [| a rest IH]; unfold total_magnitude in *; simpl; lia.
Qed.

Lemma total_delta_bound (actions : list Action) :
  Z.abs (total_delta actions) <= total_magnitude actions.
Proof.
  induction actions as [| a rest IH];
    unfold total_delta, total_magnitude in *; simpl; lia.
Qed.

(** While no sum is rounded, the value follows the sum of the
    contributions. *)
Lemma selectCount_dispatchAll_exact (actions : list Action) :
  forall state : RootState,
    Z.abs (selectCount state) + total_magnitude actions <= MAX_SAFE_INTEGER ->
    selectCount (dispatchAll actions state)
    = selectCount state + total_delta actions.
Proof.
  unfold MAX_SAFE_INTEGER.
  induction actions as [| a rest IH]; intros state Hb.
  - unfold total_delta. simpl. lia.
  - pose proof (total_magnitude_nonneg rest) as Hrest.
    change (total_magnitude (a :: rest))
      with (Z.abs (value_delta a) + total_magnitude rest) in Hb.
    change (total_delta (a :: rest))
      with (value_delta a + total_delta rest).
    assert (E : selectCount (dispatch state a)
                = selectCount state + value_delta a)
      by (apply selectCount_dispatch_exact; lia).
    rewrite dispatchAll_cons, IH; rewrite E; lia.
Qed.

Lemma total_delta_Permutation (xs ys : list Action) :
  Permutation xs ys -> total_delta xs = total_delta ys.
Proof.
  intros P. unfold total_delta.
  induction P as [| a xs ys _ IH | a b xs | xs ys zs _ IH1 _ IH2];
    simpl; lia.
Qed.

Lemma total_magnitude_Permutation (xs ys : list Action) :
  Permutation xs ys -> total_magnitude xs = total_magnitude ys.
Proof.
  intros P. unfold total_magnitude.
  induction P as [| a xs ys _ IH | a b xs | xs ys zs _ IH1 _ IH2];
    simpl; lia.
Qed.

(** X1. As long as the magnitude of the value before plus the magnitudes
    of all the contributions stays within the safe integers, the value
    after a sequence of actions is the value before plus the sum of what
    each action adds (1 for [increment], -1 for [decrement], the payload
    for [incrementByAmount] and for [fulfilled], nothing for any other
    action), and it is a safe integer again. Beyond the safe integers the
    sums are rounded and this fails. *)
Theorem value_after_actions :
  forall (actions : list Action) (state : RootState),
    Z.abs (selectCount state) + total_magnitude actions <= MAX_SAFE_INTEGER ->
    selectCount (dispatchAll actions state)
    = selectCount state + total_delta actions
    /\ is_safe (selectCount (dispatchAll actions state)).
Proof.
  intros actions state Hb.
  rewrite selectCount_dispatchAll_exact by exact Hb.
  split; [ reflexivity | ].
  pose proof (total_delta_bound actions). unfold is_safe. lia.
Qed.

Lemma value_after_actions_witness :
  Z.abs (selectCount store_initial)
  + total_magnitude [incrementByAmount (2 ^ 53 - 3); increment; decrement;
                     incrementAsync_pending]
  <= MAX_SAFE_INTEGER
  /\ selectCount
       (dispatchAll [incrementByAmount (2 ^ 53 - 3); increment; decrement;
                     incrementAsync_pending] store_initial)
     = selectCount store_initial
       + total_delta [incrementByAmount (2 ^ 53 - 3); increment; decrement;
                      incrementAsync_pending].
Proof.
  assert (H : Z.abs (selectCount store_initial)
              + total_magnitude [incrementByAmount (2 ^ 53 - 3); increment;
                                 decrement; incrementAsync_pending]
              <= MAX_SAFE_INTEGER)
    by (vm_compute; discriminate).
  split; [ exact H | ].
  exact (proj1 (value_after_actions _ _ H)).
Defined.

(** X2. Under the same bound, the value a sequence of actions leads to
    does not depend on the order of the actions: any rearrangement of
    them gives the same value (the status may differ). Without the bound
    it may not: rounding depends on the order. *)
Theorem value_independent_of_order :
  forall (xs ys : list Action) (state : RootState),
    Permutation xs ys ->
    Z.abs (selectCount state) + total_magnitude xs <= MAX_SAFE_INTEGER ->
    selectCount (dispatchAll xs state) = selectCount (dispatchAll ys state).
Proof.
  intros xs ys state P Hb.
  rewrite (selectCount_dispatchAll_exact xs) by exact Hb.
  rewrite (selectCount_dispatchAll_exact ys)
    by (rewrite <- (total_magnitude_Permutation xs ys P); exact Hb).
  rewrite (total_delta_Permutation xs ys P). reflexivity.
Qed.

Lemma value_independent_of_order_witness :
  Permutation [incrementAsync_fulfilled 7; decrement; incrementByAmount 3]
              [decrement; incrementByAmount 3; incrementAsync_fulfilled 7]
  /\ Z.abs (selectCount store_initial)
     + total_magnitude [incrementAsync_fulfilled 7; decrement;
                        incrementByAmount 3]
     <= MAX_SAFE_INTEGER
  /\ selectCount
       (dispatchAll [incrementAsync_fulfilled 7; decrement; incrementByAmount 3]
          store_initial)
     = selectCount
         (dispatchAll [decrement; incrementByAmount 3; incrementAsync_fulfilled 7]
            store_initial).
Proof.
  assert (P : Permutation
                [incrementAsync_fulfilled 7; decrement; incrementByAmount 3]
                [decrement; incrementByAmount 3; incrementAsync_fulfilled 7]).
  { change [decrement; incrementByAmount 3; incrementAsync_fulfilled 7]
      with (([decrement; incrementByAmount 3]
             ++ [incrementAsync_fulfilled 7])%list).
    apply Permutation_cons_append. }
  assert (H : Z.abs (selectCount store_initial)
              + total_magnitude [incrementAsync_fulfilled 7; decrement;
                                 incrementByAmount 3]
              <= MAX_SAFE_INTEGER)
    by (vm_compute; discriminate).
  split; [ exact P | split; [ exact H | ] ].
  exact (value_independent_of_order _ _ store_initial P H).
Defined.

(** Where the bound fails, the order matters: the same three actions from
    the initial store, in two orders. *)
Example value_depends_on_order_beyond_safe :
  selectCount (dispatchAll [increment; decrement; incrementByAmount (2 ^ 53)]
                 store_initial)
    = 2 ^ 53
  /\ selectCount (dispatchAll [incrementByAmount (2 ^ 53); increment; decrement]
                    store_initial)
     = 2 ^ 53 - 1.
Proof. split; vm_compute; reflexivity. Qed.

(** Actions that assign no status leave it as it is. *)
Lemma status_kept_by_dispatchAll (actions : list Action) :
  forall state : RootState,
    Forall (fun a => status_write a = None) actions ->
    status (counter (dispatchAll actions state)) = status (counter state).
Proof.
  induction actions as [| a rest IH]; intros state H.
  - reflexivity.
  - inversion H as [| a' rest' Ha Hrest]; subst.
    rewrite dispatchAll_cons, IH by exact Hrest.
    rewrite status_dispatch, Ha. reflexivity.
Qed.

(** X3. The status after a sequence of actions is the one the last
    [pending] or [fulfilled] action of the sequence assigns ([loading] or
    [idle]), whatever came before it: the status does not count the calls
    that were started. *)
Theorem status_is_last_write :
  forall (before after : list Action) (a : Action) (s : Status)
         (state : RootState),
    status_write a = Some s ->
    Forall (fun b => status_write b = None) after ->
    status (counter (dispatchAll (before ++ a :: after) state)) = s.
Proof.
  intros before after a s state Ha Hafter.
  rewrite dispatchAll_app, dispatchAll_cons.
  rewrite status_kept_by_dispatchAll by exact Hafter.
  rewrite status_dispatch, Ha. reflexivity.
Qed.

Lemma status_is_last_write_witness :
  status_write (incrementAsync_fulfilled 2) = Some idle
  /\ Forall (fun b => status_write b = None) [increment; incrementAsync_rejected]
  /\ status (counter (dispatchAll
                        ([incrementAsync_pending; incrementAsync_pending]
                         ++ incrementAsync_fulfilled 2
                         :: [increment; incrementAsync_rejected])
                        store_initial))
     = idle.
Proof.
  assert (F : Forall (fun b => status_write b = None)
                [increment; incrementAsync_rejected])
    by (repeat constructor).
  split; [ reflexivity | split; [ exact F | ] ].
  exact (status_is_last_write
           [incrementAsync_pending; incrementAsync_pending]
           [increment; incrementAsync_rejected]
           (incrementAsync_fulfilled 2) idle store_initial eq_refl F).
Defined.

(** ** The conditional increment, by parity *)

(** X4. [incrementIfOdd amount] adds [amount] exactly when the value is
    positive and odd. On every other value it changes nothing: on even
    values, on zero, and on negative odd values too. *)
Theorem incrementIfOdd_only_positive_odd :
  forall (state : RootState) (amount : Z),
    fst (run (incrementIfOdd amount) state)
    = if ((0 <? selectCount state)%Z && Z.odd (selectCount state))%bool
      then {| counter := {| value := number_add (selectCount state) amount;
                            status := status (counter state) |} |}
      else state.
Proof.
  intros state amount. rewrite run_incrementIfOdd. cbn [fst].
  destruct (Z.eqb_spec (Z.rem (selectCount state) 2) 1) as [E | E].
  - apply rem2_is_1_iff in E. destruct E as [Hpos Hodd].
    rewrite Hodd, (proj2 (Z.ltb_lt _ _) Hpos). reflexivity.
  - destruct (Z.ltb_spec 0 (selectCount state)) as [Hpos | Hneg];
      [ | reflexivity ].
    destruct (Z.odd (selectCount state)) eqn:Hodd; [ | reflexivity ].
    exfalso. apply E. apply rem2_is_1_iff. split; assumption.
Qed.

(** X5. With an odd amount, a second [incrementIfOdd amount] right after
    the first changes nothing: the first leaves a value that is not
    positive and odd (the sum of two odd numbers is even, and stays even
    when it is rounded). *)
Theorem incrementIfOdd_twice_odd_amount :
  forall (state : RootState) (amount : Z),
    Z.odd amount = true ->
    fst (run (incrementIfOdd amount) (fst (run (incrementIfOdd amount) state)))
    = fst (run (incrementIfOdd amount) state).
Proof.
  intros state amount Hamount.
  apply incrementIfOdd_otherwise_unchanged.
  rewrite run_incrementIfOdd. cbn [fst].
  destruct (Z.eqb_spec (Z.rem (selectCount state) 2) 1) as [E | E].
  - right. apply rem2_is_1_iff in E. destruct E as [_ Hodd].
    change (selectCount (dispatch state (incrementByAmount amount)))
      with (round64 (selectCount state + amount)).
    destruct (Z.odd (round64 (selectCount state + amount))) eqn:Hsum;
      [ | reflexivity ].
    rewrite (round64_odd _ Hsum) in Hsum.
    rewrite Z.odd_add, Hodd, Hamount in Hsum. discriminate Hsum.
  - destruct (Z.leb_spec (selectCount state) 0) as [Hle | Hpos];
      [ left; exact Hle | right ].
    destruct (Z.odd (selectCount state)) eqn:Hodd; [ | reflexivity ].
    exfalso. apply E. apply rem2_is_1_iff. split; assumption.
Qed.

Lemma incrementIfOdd_twice_odd_amount_witness :
  Z.odd 5 = true
  /\ fst (run (incrementIfOdd 5)
            (fst (run (incrementIfOdd 5)
                    {| counter := {| value := 3; status := idle |} |})))
     = fst (run (incrementIfOdd 5)
              {| counter := {| value := 3; status := idle |} |}).
Proof.
  split; [ reflexivity | ].
  apply (incrementIfOdd_twice_odd_amount
           {| counter := {| value := 3; status := idle |} |} 5).
  reflexivity.
Defined.

(** ** The store with calls in flight *)

Lemma length_remove_nth {A : Type} (l : list A) :
  forall i : nat, (i < length l)%nat ->
    length (remove_nth i l) = pred (length l).
Proof.
  induction l as [| x l IH]; intros i Hi; simpl in *.
  - lia.
  - destruct i as [| i]; [ reflexivity | ].
    simpl. rewrite IH by lia. destruct l; simpl in *; lia.
Qed.

Lemma Forall_remove_nth {A : Type} (P : A -> Prop) (l : list A) :
  forall i : nat, Forall P l -> Forall P (remove_nth i l).
Proof.
  induction l as [| x l IH]; intros i H; simpl.
  - constructor.
  - inversion H as [| x' l' Hx Hl]; subst.
    destruct i as [| i]; [ exact Hl | ].
    constructor; [ exact Hx | apply IH; exact Hl ].
Qed.

Lemma nth_error_remove_nth_before {A : Type} (l : list A) :
  forall i j : nat, (i <= j)%nat ->
    nth_error (remove_nth (S j) l) i = nth_error l i.
Proof.
  induction l as [| x l IH]; intros i j Hij.
  - reflexivity.
  - destruct i as [| i]; [ reflexivity | ].
    destruct j as [| j]; [ lia | ].
    simpl. apply IH. lia.
Qed.

Lemma nth_error_remove_nth_after {A : Type} (l : list A) :
  forall i j : nat, (i <= j)%nat ->
    nth_error (remove_nth i l) j = nth_error l (S j).
Proof.
  induction l as [| x l IH]; intros i j Hij.
  - simpl. destruct j; reflexivity.
  - destruct i as [| i]; [ reflexivity | ].
    destruct j as [| j]; [ lia | ].
    simpl. apply IH. lia.
Qed.

Lemma remove_nth_swap {A : Type} (l : list A) :
  forall i j : nat, (i <= j)%nat ->
    remove_nth j (remove_nth i l) = remove_nth i (remove_nth (S j) l).
Proof.
  induction l as [| x l IH]; intros i j Hij.
  - reflexivity.
  - destruct i as [| i]; [ reflexivity | ].
    destruct j as [| j]; [ lia | ].
    simpl. f_equal. apply IH. lia.
Qed.

(** The action a settled call of [incrementAsync] ends in. *)
Lemma launch_settled_call (amount : Z) (o : Settled) (state : RootState)
    (calls : list PendingCall) :
  launch (settle o (call_resolve (incrementAsync_call amount))
            (call_reject (incrementAsync_call amount)))
    {| getState := state; inflight := calls |}
  = {| getState :=
         dispatch state
           match o with
           | Resolved response => incrementAsync_fulfilled (data response)
           | Rejected => incrementAsync_rejected
           end;
       inflight := calls |}.
Proof. destruct o; reflexivity. Qed.

Lemma launch_incrementAsync (amount : Z) (s : Store) :
  launch (incrementAsync amount) s
  = {| getState := dispatch (getState s) incrementAsync_pending;
       inflight := inflight s ++ [incrementAsync_call amount] |}.
Proof. reflexivity. Qed.

(** Every call in flight was made by [incrementAsync]: the two thunks of
    the slice are the only programs the store runs, and only that one
    awaits. *)
Lemma step_inflight (s : Store) (e : Event) :
  Forall (fun c => exists amount, c = incrementAsync_call amount) (inflight s) ->
  Forall (fun c => exists amount, c = incrementAsync_call amount)
    (inflight (step s e)).
Proof.
  intros H. destruct e as [a | amount | amount | i o]; cbn [step].
  - exact H.
  - rewrite launch_incrementAsync. cbn [inflight].
    apply Forall_app. split; [ exact H | ].
    constructor; [ exists amount; reflexivity | constructor ].
  - exact H.
  - destruct (nth_error (inflight s) i) as [c |] eqn:Hc; [ | exact H ].
    assert (Hin : exists amount, c = incrementAsync_call amount).
    { apply nth_error_In in Hc.
      exact (proj1 (Forall_forall _ _) H c Hc). }
    destruct Hin as [amount ->].
    rewrite launch_settled_call. cbn [inflight].
    apply Forall_remove_nth. exact H.
Qed.

Lemma run_events_inflight (events : list Event) :
  forall s : Store,
    Forall (fun c => exists amount, c = incrementAsync_call amount)
      (inflight s) ->
    Forall (fun c => exists amount, c = incrementAsync_call amount)
      (inflight (run_events events s)).
Proof.
  induction events as [| e rest IH]; intros s H.
  - exact H.
  - simpl. apply IH. apply step_inflight. exact H.
Qed.

Lemma store_inflight (events : list Event) :
  Forall (fun c => exists amount, c = incrementAsync_call amount)
    (inflight (run_events events store)).
Proof. apply run_events_inflight. constructor. Qed.

(** One call in flight settles: the store goes through the action of the
    outcome, and the call is no longer in flight. *)
Lemma step_settle (events : list Event) (i : nat) (o : Settled) :
  (i < length (inflight (run_events events store)))%nat ->
  step (run_events events store) (EvSettle i o)
  = {| getState :=
         dispatch (getState (run_events events store))
           match o with
           | Resolved response => incrementAsync_fulfilled (data response)
           | Rejected => incrementAsync_rejected
           end;
       inflight := remove_nth i (inflight (run_events events store)) |}.
Proof.
  intros Hi.
  pose proof (store_inflight events) as Hall.
  destruct (nth_error (inflight (run_events events store)) i) as [c |] eqn:Hc.
  - assert (Hin : exists amount, c = incrementAsync_call amount).
    { apply nth_error_In in Hc.
      exact (proj1 (Forall_forall _ _) Hall c Hc). }
    destruct Hin as [amount ->].
    cbn [step]. rewrite Hc. apply launch_settled_call.
  - apply nth_error_None in Hc. lia.
Qed.

Lemma nth_error_remove_nth_lt {A : Type} (l : list A) (i k : nat) :
  (k < i)%nat -> nth_error (remove_nth i l) k = nth_error l k.
Proof.
  intros H. destruct i as [| j]; [ lia | ].
  apply nth_error_remove_nth_before. lia.
Qed.

(** X6. When a call in flight resolves, whichever one and however many
    others are still in flight, the status becomes [idle] and the data of
    the response is added to the value the store holds then; exactly that
    call leaves the calls in flight, and the others stay, in their order.
    So [idle] does not mean that no call is pending. *)
Theorem resolution_sets_idle_with_calls_in_flight :
  forall (events : list Event) (i : nat) (response : FetchResponse),
    (i < length (inflight (run_events events store)))%nat ->
    step (run_events events store) (EvSettle i (Resolved response))
    = {| getState :=
           {| counter :=
                {| value :=
                     number_add
                       (selectCount (getState (run_events events store)))
                       (data response);
                   status := idle |} |};
         inflight := remove_nth i (inflight (run_events events store)) |}
    /\ (forall k : nat,
           (k < i)%nat ->
           nth_error (inflight (step (run_events events store)
                                  (EvSettle i (Resolved response)))) k
           = nth_error (inflight (run_events events store)) k)
    /\ (forall k : nat,
           (i <= k)%nat ->
           nth_error (inflight (step (run_events events store)
                                  (EvSettle i (Resolved response)))) k
           = nth_error (inflight (run_events events store)) (S k)).
Proof.
  intros events i response Hi.
  rewrite step_settle by exact Hi. cbn [getState inflight].
  split; [ reflexivity | split; intros k Hk ].
  - apply nth_error_remove_nth_lt. exact Hk.
  - apply nth_error_remove_nth_after. exact Hk.
Qed.

Lemma resolution_sets_idle_with_calls_in_flight_witness :
  (1 < length (inflight (run_events
                           [EvIncrementAsync 1; EvIncrementAsync 2;
                            EvIncrementAsync 3] store)))%nat
  /\ step (run_events [EvIncrementAsync 1; EvIncrementAsync 2;
                       EvIncrementAsync 3] store)
       (EvSettle 1 (Resolved {| data := 5 |}))
     = {| getState := {| counter := {| value := 5; status := idle |} |};
          inflight := [incrementAsync_call 1; incrementAsync_call 3] |}.
Proof.
  assert (H : (1 < length (inflight (run_events
                                       [EvIncrementAsync 1; EvIncrementAsync 2;
                                        EvIncrementAsync 3] store)))%nat)
    by (simpl; lia).
  split; [ exact H | ].
  exact (proj1 (resolution_sets_idle_with_calls_in_flight
                  [EvIncrementAsync 1; EvIncrementAsync 2; EvIncrementAsync 3]
                  1 {| data := 5 |} H)).
Defined.

(** X7. When a call in flight rejects, the state of the store is left
    exactly as it was, and exactly that call leaves the calls in flight
    (the others stay, in their order): nothing of the rejection is
    recorded, and a status of [loading] can remain with no call
    pending. *)
Theorem rejection_leaves_state_and_frees_call :
  forall (events : list Event) (i : nat),
    (i < length (inflight (run_events events store)))%nat ->
    step (run_events events store) (EvSettle i Rejected)
    = {| getState := getState (run_events events store);
         inflight := remove_nth i (inflight (run_events events store)) |}
    /\ (forall k : nat,
           (k < i)%nat ->
           nth_error (inflight (step (run_events events store)
                                  (EvSettle i Rejected))) k
           = nth_error (inflight (run_events events store)) k)
    /\ (forall k : nat,
           (i <= k)%nat ->
           nth_error (inflight (step (run_events events store)
                                  (EvSettle i Rejected))) k
           = nth_error (inflight (run_events events store)) (S k)).
Proof.
  intros events i Hi.
  rewrite step_settle by exact Hi. cbn [getState inflight].
  split; [ | split; intros k Hk ].
  - destruct (getState (run_events events store)) as [[v st]]. reflexivity.
  - apply nth_error_remove_nth_lt. exact Hk.
  - apply nth_error_remove_nth_after. exact Hk.
Qed.

Lemma rejection_leaves_state_and_frees_call_witness :
  (0 < length (inflight (run_events [EvIncrementAsync 1; EvIncrementAsync 2]
                           store)))%nat
  /\ step (run_events [EvIncrementAsync 1; EvIncrementAsync 2] store)
       (EvSettle 0 Rejected)
     = {| getState := {| counter := {| value := 0; status := loading |} |};
          inflight := [incrementAsync_call 2] |}.
Proof.
  assert (H : (0 < length (inflight (run_events
                                       [EvIncrementAsync 1; EvIncrementAsync 2]
                                       store)))%nat)
    by (simpl; lia).
  split; [ exact H | ].
  exact (proj1 (rejection_leaves_state_and_frees_call
                  [EvIncrementAsync 1; EvIncrementAsync 2] 0 H)).
Defined.

(** Two [fulfilled] actions commute while their sums are not rounded. *)
Lemma fulfilled_twice_commute (state : RootState) (r1 r2 : Z) :
  Z.abs (selectCount state) + Z.abs r1 + Z.abs r2 <= MAX_SAFE_INTEGER ->
  dispatch (dispatch state (incrementAsync_fulfilled r1))
    (incrementAsync_fulfilled r2)
  = dispatch (dispatch state (incrementAsync_fulfilled r2))
      (incrementAsync_fulfilled r1).
Proof.
  destruct state as [[v st]]. unfold MAX_SAFE_INTEGER, selectCount.
  cbn [counter value]. intros Hb.
  unfold dispatch, rootReducer, counterSliceReducer; simpl.
  unfold extraReducers.fulfilled, set_value, set_status; simpl.
  rewrite (number_add_exact v r1) by lia.
  rewrite (number_add_exact v r2) by lia.
  rewrite (number_add_exact (v + r1) r2) by lia.
  rewrite (number_add_exact (v + r2) r1) by lia.
  do 2 f_equal. lia.
Qed.

(** X8. Two calls in flight that both resolve leave the same store
    whichever resolves first (the same state, both data added and status
    [idle], and the same calls still in flight), as long as the magnitude
    of the value plus the magnitudes of the two data stays within the
    safe integers. Beyond them the two sums are rounded and the order can
    show. *)
Theorem resolution_order_irrelevant :
  forall (events : list Event) (i j : nat) (r1 r2 : FetchResponse),
    (i <= j)%nat ->
    (S j < length (inflight (run_events events store)))%nat ->
    Z.abs (selectCount (getState (run_events events store)))
    + Z.abs (data r1) + Z.abs (data r2) <= MAX_SAFE_INTEGER ->
    step (step (run_events events store) (EvSettle i (Resolved r1)))
      (EvSettle j (Resolved r2))
    = step (step (run_events events store) (EvSettle (S j) (Resolved r2)))
        (EvSettle i (Resolved r1)).
Proof.
  intros events i j r1 r2 Hij Hj Hb.
  pose proof (store_inflight events) as Hall.
  rewrite (step_settle events i) by lia.
  rewrite (step_settle events (S j)) by exact Hj.
  set (s := run_events events store) in *.
  destruct (nth_error (inflight s) i) as [ci |] eqn:Hci;
    [ | apply nth_error_None in Hci; lia ].
  destruct (nth_error (inflight s) (S j)) as [cj |] eqn:Hcj;
    [ | apply nth_error_None in Hcj; lia ].
  assert (Hi' : exists amount, ci = incrementAsync_call amount).
  { apply nth_error_In in Hci.
    exact (proj1 (Forall_forall _ _) Hall ci Hci). }
  assert (Hj' : exists amount, cj = incrementAsync_call amount).
  { apply nth_error_In in Hcj.
    exact (proj1 (Forall_forall _ _) Hall cj Hcj). }
  destruct Hi' as [ai ->]. destruct Hj' as [aj ->].
  cbn [step getState inflight].
  rewrite nth_error_remove_nth_after by exact Hij.
  rewrite nth_error_remove_nth_before by exact Hij.
  rewrite Hci, Hcj.
  rewrite !launch_settled_call.
  rewrite remove_nth_swap by exact Hij.
  rewrite fulfilled_twice_commute by exact Hb. reflexivity.
Qed.

Lemma resolution_order_irrelevant_witness :
  (0 <= 0)%nat
  /\ (1 < length (inflight (run_events
                              [EvIncrementAsync 1; EvAction increment;
                               EvIncrementAsync 2] store)))%nat
  /\ Z.abs (selectCount (getState (run_events
                                     [EvIncrementAsync 1; EvAction increment;
                                      EvIncrementAsync 2] store)))
     + Z.abs (data {| data := 10 |}) + Z.abs (data {| data := -20 |})
     <= MAX_SAFE_INTEGER
  /\ step (step (run_events [EvIncrementAsync 1; EvAction increment;
                             EvIncrementAsync 2] store)
             (EvSettle 0 (Resolved {| data := 10 |})))
       (EvSettle 0 (Resolved {| data := -20 |}))
     = step (step (run_events [EvIncrementAsync 1; EvAction increment;
                               EvIncrementAsync 2] store)
               (EvSettle 1 (Resolved {| data := -20 |})))
         (EvSettle 0 (Resolved {| data := 10 |})).
Proof.
  assert (H : (1 < length (inflight (run_events
                                       [EvIncrementAsync 1; EvAction increment;
                                        EvIncrementAsync 2] store)))%nat)
    by (simpl; lia).
  assert (B : Z.abs (selectCount (getState (run_events
                                     [EvIncrementAsync 1; EvAction increment;
                                      EvIncrementAsync 2] store)))
              + Z.abs (data {| data := 10 |}) + Z.abs (data {| data := -20 |})
              <= MAX_SAFE_INTEGER)
    by (vm_compute; discriminate).
  split; [ lia | split; [ exact H | split; [ exact B | ] ] ].
  apply (resolution_order_irrelevant
           [EvIncrementAsync 1; EvAction increment; EvIncrementAsync 2]
           0 0 {| data := 10 |} {| data := -20 |}); [ lia | exact H | exact B ].
Defined.

(** Beyond the safe integers the order of two resolutions shows: with the
    value at [2^53], the data 1 and -1 leave [2^53 - 1] in one order and
    [2^53] in the other. *)
Example resolution_order_shows_beyond_safe :
  selectCount
    (getState
       (run_events [EvAction (incrementByAmount (2 ^ 53));
                    EvIncrementAsync 0; EvIncrementAsync 0;
                    EvSettle 0 (Resolved {| data := 1 |});
                    EvSettle 0 (Resolved {| data := -1 |})] store))
    = 2 ^ 53 - 1
  /\ selectCount
       (getState
          (run_events [EvAction (incrementByAmount (2 ^ 53));
                       EvIncrementAsync 0; EvIncrementAsync 0;
                       EvSettle 1 (Resolved {| data := -1 |});
                       EvSettle 0 (Resolved {| data := 1 |})] store))
     = 2 ^ 53.
Proof. split; vm_compute; reflexivity. Qed.

(** ** The status over the life of the store *)

Lemma dispatch_idle_or_loading (state : RootState) (a : Action) :
  status (counter state) = idle \/ status (counter state) = loading ->
  status (counter (dispatch state a)) = idle
  \/ status (counter (dispatch state a)) = loading.
Proof.
  intros H. rewrite counter_dispatch.
  destruct (caseReducer_status (counter state) a) as [E | [E | E]];
    rewrite E; auto.
Qed.

Lemma step_idle_or_loading (s : Store) (e : Event) :
  Forall (fun c => exists amount, c = incrementAsync_call amount) (inflight s) ->
  status (counter (getState s)) = idle
  \/ status (counter (getState s)) = loading ->
  status (counter (getState (step s e))) = idle
  \/ status (counter (getState (step s e))) = loading.
Proof.
  intros Hall H. destruct e as [a | amount | amount | i o]; cbn [step].
  - cbn [getState]. apply dispatch_idle_or_loading. exact H.
  - rewrite launch_incrementAsync. cbn [getState].
    apply dispatch_idle_or_loading. exact H.
  - cbn [getState]. rewrite run_incrementIfOdd. cbn [fst].
    destruct (Z.rem (selectCount (getState s)) 2 =? 1)%Z;
      [ apply dispatch_idle_or_loading | ]; exact H.
  - destruct (nth_error (inflight s) i) as [c |] eqn:Hc; [ | exact H ].
    assert (Hin : exists amount, c = incrementAsync_call amount).
    { apply nth_error_In in Hc.
      exact (proj1 (Forall_forall _ _) Hall c Hc). }
    destruct Hin as [amount ->].
    rewrite launch_settled_call. cbn [getState].
    apply dispatch_idle_or_loading. exact H.
Qed.

(** X10. Whatever happens to the store of the application (plain actions
    of any type, [incrementAsync], [incrementIfOdd], calls resolving or
    rejecting in any order), its status is [idle] or [loading]: the value
    [failed] of the type is never assigned. *)
Theorem store_status_idle_or_loading :
  forall events : list Event,
    status (counter (getState (run_events events store))) = idle
    \/ status (counter (getState (run_events events store))) = loading.
Proof.
  assert (G : forall (events : list Event) (s : Store),
             Forall (fun c => exists amount, c = incrementAsync_call amount)
               (inflight s) ->
             status (counter (getState s)) = idle
             \/ status (counter (getState s)) = loading ->
             status (counter (getState (run_events events s))) = idle
             \/ status (counter (getState (run_events events s))) = loading).
  { induction events as [| e rest IH]; intros s Hall H.
    - exact H.
    - change (run_events (e :: rest) s) with (run_events rest (step s e)).
      apply IH.
      + apply step_inflight. exact Hall.
      + apply step_idle_or_loading; assumption. }
  intros events. apply G.
  - constructor.
  - left. reflexivity.
Qed.
